(** * The MLLP connection pool of [mllp_http_https/https2mllp.py]

    A shallow embedding of [MllpConnection], [MllpClient] (the pool, its
    keep-alive watchdog) and [HttpsHandler.do_POST], with the properties
    the pool is expected to have.

    Conventions.
    - Python objects that are shared between threads (the [MllpConnection]
      instances) live in a heap, a list indexed by object identity.
    - [time.monotonic()] and the outcome of every network call are inputs
      ([env]); time is counted in integer ticks.
    - every function runs in the monad [M]: it threads the [world] and
      either returns a value or raises. A raise keeps the mutations done
      before it, as in Python.
    - the bodies of [with self.lock:] are executed in one step, bracketed
      by [EvLock] and [EvUnlock] in the trace; statements outside a
      [with] block are separate steps of the thread that runs them. *)

From Stdlib Require Import ZArith String DecimalString.
From Stdlib.Strings Require Import Byte.
From stdpp Require Import base tactics option list strings.

Set Default Proof Using "Type".

(** ** Values, exceptions, sockets *)

Definition bytes := list byte.
Abbreviation conn_id := nat (only parsing).

Inductive exn :=
| OSError (errno : Z)      (* socket.error, socket.timeout, ... *)
| TypeError                (* calling a bool, adding None to a number, int(None) *)
| ValueError               (* int() of a malformed header *)
| InvalidRef.              (* an identity that names no object: not reachable *)

Inductive result (A : Type) :=
| Ok (a : A)
| Raise (e : exn).
Arguments Ok {A} a.
Arguments Raise {A} e.

Record Socket := mkSocket {
  fd_open : bool;               (* False once socket.close() ran *)
  sock_timeout : option Z;      (* s.settimeout(...) *)
  so_keepalive : Z              (* s.setsockopt(SOL_SOCKET, SO_KEEPALIVE, 10) *)
}.

(** What the outside world answers to one step of the program. *)
Record env := mkEnv {
  monotonic : Z;                               (* time.monotonic() *)
  connect : result unit;                       (* s.connect(self.address) *)
  send_mllp : Socket -> bytes -> result bytes; (* mllp.send_mllp(socket, data) *)
  shutdown : result unit                       (* socket.shutdown(2) *)
}.

Inductive event :=
| EvLock
| EvUnlock
| EvPop (c : option conn_id)      (* self.connections.pop(); None: IndexError *)
| EvConnect (ok : bool)           (* s.connect(self.address) *)
| EvSpawn (c : conn_id)           (* threading.Thread(...).start() *)
| EvSendMllp (c : conn_id) (ok : bool)
| EvShutdown (c : conn_id) (ok : bool)
| EvSocketClose (c : conn_id)
| EvAppend (c : conn_id)
| EvRemove (c : conn_id) (ok : bool)  (* self.connections.remove(c); false: ValueError *)
| EvSleep (seconds : Z).

Global Instance event_eq_dec : EqDecision event.
Proof. solve_decision. Defined.

(** ** [class MllpClientOptions] *)

Record MllpClientOptions := mkOptions {
  keep_alive : option Z;
  max_messages : Z;
  timeout : option Z
}.

(** ** [class MllpConnection]: the attributes of one instance.
    [inst_close] is the entry [close] of the instance dictionary: [None]
    while the name [close] still resolves to the method of the class. *)

Record MllpConnection := mkConnection {
  closed : bool;
  inst_close : option bool;
  last_update : option Z;
  message_count : Z;
  socket : Socket
}.

(** The program counter of a watchdog thread running
    [MllpClient._check_connection(connection)]. *)
Inductive wd_pc :=
| WTest                    (* line 34: while not connection.closed *)
| WBody                    (* lines 35-41: elasped, remaining, the test *)
| WSleep (seconds : Z)     (* line 42: inside time.sleep(remaining) *)
| WRemove                  (* lines 44-48: with self.lock: remove *)
| WClose                   (* lines 50-52 *)
| WExit                    (* the loop condition was false *)
| WRaised (e : exn).       (* the thread died of an exception *)

(** ** The world: the [MllpClient] instance, the heap, the threads *)

Record world := mkWorld {
  address : string * Z;             (* self.address *)
  options : MllpClientOptions;      (* self.options *)
  connections : list conn_id;       (* self.connections *)
  heap : list MllpConnection;       (* the MllpConnection objects *)
  watchdogs : list (conn_id * wd_pc);
  trace : list event                (* oldest first *)
}.

Definition M (A : Type) := world -> result A * world.

Global Instance M_ret : MRet M := fun A (a : A) w => (Ok a, w).
Global Instance M_bind : MBind M := fun A B (k : A -> M B) (m : M A) w =>
  match m w with
  | (Ok a, w') => k a w'
  | (Raise e, w') => (Raise e, w')
  end.
Definition raise {A} (e : exn) : M A := fun w => (Raise e, w).

Definition set_connections (l : list conn_id) (w : world) : world :=
  mkWorld (address w) (options w) l (heap w) (watchdogs w) (trace w).
Definition set_heap (h : list MllpConnection) (w : world) : world :=
  mkWorld (address w) (options w) (connections w) h (watchdogs w) (trace w).
Definition set_watchdogs (t : list (conn_id * wd_pc)) (w : world) : world :=
  mkWorld (address w) (options w) (connections w) (heap w) t (trace w).
Definition emit (evs : list event) (w : world) : world :=
  mkWorld (address w) (options w) (connections w) (heap w) (watchdogs w)
    (trace w ++ evs).
Definition log (evs : list event) : M unit := fun w => (Ok tt, emit evs w).

(** Reading and updating the attributes of the object [c]. *)
Definition deref (c : conn_id) : M MllpConnection := fun w =>
  match heap w !! c with
  | Some o => (Ok o, w)
  | None => (Raise InvalidRef, w)
  end.
Definition modify (c : conn_id) (f : MllpConnection -> MllpConnection) : M unit :=
  o ← deref c;
  (fun w => (Ok tt, set_heap (<[c := f o]> (heap w)) w)) : M unit.

Definition set_inst_close (v : option bool) (o : MllpConnection) :=
  mkConnection (closed o) v (last_update o) (message_count o) (socket o).
Definition set_last_update (v : option Z) (o : MllpConnection) :=
  mkConnection (closed o) (inst_close o) v (message_count o) (socket o).
Definition set_message_count (v : Z) (o : MllpConnection) :=
  mkConnection (closed o) (inst_close o) (last_update o) v (socket o).
Definition set_socket (s : Socket) (o : MllpConnection) :=
  mkConnection (closed o) (inst_close o) (last_update o) (message_count o) s.
Definition socket_close (s : Socket) : Socket :=
  mkSocket false (sock_timeout s) (so_keepalive s).

Definition is_ok {A} (r : result A) : bool :=
  match r with Ok _ => true | Raise _ => false end.
Definition lift {A} (r : result A) : M A := fun w => (r, w).

Module MllpConnection.

(** [__init__(self, socket)], lines 92-96. *)
Definition __init__ (s : Socket) : MllpConnection :=
  mkConnection false None None 0%Z s.

(** [close(self)], lines 98-102. The call [connection.close()] first looks
    the name up: once the instance holds [close = True] the call is the
    call of a bool. The [print] is not modelled. *)
Definition close (E : env) (c : conn_id) : M unit :=
  o ← deref c;
  match inst_close o with
  | Some _ => raise TypeError
  | None =>
      modify c (set_inst_close (Some true)) ;;
      log [EvShutdown c (is_ok (shutdown E))] ;;
      lift (shutdown E) ;;
      modify c (fun o => set_socket (socket_close (socket o)) o) ;;
      log [EvSocketClose c]
  end.

(** [send(self, data)], lines 104-109. *)
Definition send (E : env) (c : conn_id) (data : bytes) : M bytes :=
  o ← deref c;
  modify c (set_message_count (message_count o + 1)%Z) ;;
  let r := send_mllp E (socket o) data in
  log [EvSendMllp c (is_ok r)] ;;
  lift r.

End MllpConnection.

(** ** Python's [list.pop()] and [list.remove(x)] *)

(** [l.pop()]: the last element and the rest; [None] is [IndexError]. *)
Fixpoint py_pop {A} (l : list A) : option (list A * A) :=
  match l with
  | [] => None
  | x :: l' =>
      match py_pop l' with
      | None => Some ([], x)
      | Some (rest, y) => Some (x :: rest, y)
      end
  end.

(** [l.remove(c)]: drops the first occurrence; [None] is [ValueError]. *)
Fixpoint py_remove (c : conn_id) (l : list conn_id) : option (list conn_id) :=
  match l with
  | [] => None
  | x :: l' => if decide (x = c) then Some l' else (x ::.) <$> py_remove c l'
  end.

(** ** [class MllpClient] *)

Definition get_options : M MllpClientOptions := fun w => (Ok (options w), w).
Definition get_connections : M (list conn_id) := fun w => (Ok (connections w), w).
Definition put_connections (l : list conn_id) : M unit := fun w =>
  (Ok tt, set_connections l w).

(** [with self.lock: body]: the lock is released however the body ends. *)
Definition with_lock {A} (body : M A) : M A := fun w =>
  match (log [EvLock] ;; body) w with
  | (r, w') => (r, snd (log [EvUnlock] w'))
  end.

(** [MllpConnection(s)]: a new object, its identity is the next free index. *)
Definition alloc (o : MllpConnection) : M conn_id := fun w =>
  (Ok (length (heap w)), set_heap (heap w ++ [o]) w).

(** [threading.Thread(target=self._check_connection, args=(c,)).start()] *)
Definition spawn (c : conn_id) : M unit := fun w =>
  log [EvSpawn c] (set_watchdogs (watchdogs w ++ [(c, WTest)]) w).

(** The events of [w'] that are not yet in [w]. *)
Definition since (w w' : world) : list event :=
  drop (length (trace w)) (trace w').

(** Python truth value of [self.options.timeout]. *)
Definition truthy (t : option Z) : bool :=
  match t with
  | None => false
  | Some z => negb (z =? 0)%Z
  end.

(** The socket of lines 55-58 of [_connect], before [s.connect]. *)
Definition new_socket (opts : MllpClientOptions) : Socket :=
  mkSocket true (if truthy (timeout opts) then timeout opts else None) 10.

(** The test of line 82 of [send]. *)
Definition at_bound (opts : MllpClientOptions) (o : MllpConnection) : bool :=
  (max_messages opts <=? message_count o)%Z && (max_messages opts >=? 0)%Z.

Module MllpClient.

(** [__init__(self, address, options)], lines 27-31. *)
Definition __init__ (addr : string * Z) (opts : MllpClientOptions) : world :=
  mkWorld addr opts [] [] [] [].

(** Lines 35-40 of [_check_connection]: [elasped] and [remaining]. *)
Definition elasped (o : MllpConnection) (now : Z) : Z :=
  match last_update o with
  | Some t => (t - now)%Z
  | None => 0%Z
  end.
Definition remaining (ka : Z) (o : MllpConnection) (now : Z) : Z :=
  (ka + elasped o now)%Z.

(** [_check_connection(self, connection)], lines 33-52, one step at a time:
    the result is the next program point of the thread. *)
Definition _check_connection (E : env) (c : conn_id) (pc : wd_pc) : M wd_pc :=
  match pc with
  | WTest =>
      o ← deref c;
      mret (if closed o then WExit else WBody)
  | WBody =>
      o ← deref c;
      opts ← get_options;
      match keep_alive opts with
      | None => raise TypeError
      | Some ka =>
          let r := remaining ka o (monotonic E) in
          if (0 <? r)%Z then log [EvSleep r] ;; mret (WSleep r)
          else mret WRemove
      end
  | WSleep _ => mret WTest
  | WRemove =>
      with_lock (
        l ← get_connections;
        match py_remove c l with
        | None => log [EvRemove c false] ;; mret WTest          (* except ValueError: pass *)
        | Some l' => put_connections l' ;; log [EvRemove c true] ;; mret WClose
        end)
  | WClose =>
      opts ← get_options;
      match keep_alive opts with
      | None => raise TypeError
      | Some ka =>
          if (ka >? 0)%Z then MllpConnection.close E c ;; mret WTest
          else mret WTest
      end
  | WExit => mret WExit
  | WRaised e => mret (WRaised e)
  end.

(** [_connect(self)], lines 54-69. The [print] is not modelled. *)
Definition _connect (E : env) : M conn_id :=
  opts ← get_options;
  let s := new_socket opts in
  log [EvConnect (is_ok (connect E))] ;;
  lift (connect E) ;;
  c ← alloc (MllpConnection.__init__ s);
  match keep_alive opts with
  | Some _ => spawn c
  | None => mret tt
  end ;;
  mret c.

(** Lines 72-78 of [send]: the acquisition, under the lock. *)
Definition acquire : M (option conn_id) :=
  with_lock (
    l ← get_connections;
    match py_pop l with
    | None => log [EvPop None] ;; mret None
    | Some (rest, c) =>
        put_connections rest ;;
        log [EvPop (Some c)] ;;
        modify c (set_last_update None) ;;
        mret (Some c)
    end).

(** Lines 82-85 of [send], as the step of a thread: close the connection,
    or stamp it idle; [true] when the connection is still to be appended. *)
Definition rotate_or_stamp (E : env) (c : conn_id) : M bool :=
  opts ← get_options;
  o ← deref c;
  if at_bound opts o
  then MllpConnection.close E c ;; mret false
  else modify c (set_last_update (Some (monotonic E))) ;; mret true.

(** Lines 86-87 of [send]: the release, under the lock. *)
Definition append (c : conn_id) : M unit :=
  with_lock (
    l ← get_connections;
    put_connections (l ++ [c]) ;;
    log [EvAppend c]).

(** Lines 81-88 of [send], once [connection] is bound to [c]. *)
Definition exchange (E : env) (c : conn_id) (data : bytes) : M bytes :=
  response ← MllpConnection.send E c data;
  opts ← get_options;
  o ← deref c;
  (if at_bound opts o
   then MllpConnection.close E c
   else modify c (set_last_update (Some (monotonic E))) ;; append c) ;;
  mret response.

(** [send(self, data)], lines 71-88. *)
Definition send (E : env) (data : bytes) : M bytes :=
  connection ← acquire;
  c ← match connection with
      | None => _connect E
      | Some c => mret c
      end;
  exchange E c data.

End MllpClient.

(** ** Threads

    A request thread runs [MllpClient.send(data)]; its program points are
    the statements of [send] between which other threads may run. *)

Inductive send_pc :=
| SAcquire (data : bytes)                      (* lines 72-78 *)
| SConnect (data : bytes)                      (* lines 79-80 *)
| SSend (c : conn_id) (data : bytes)           (* line 81 *)
| SRelease (c : conn_id) (response : bytes)    (* lines 82-85 *)
| SAppend (c : conn_id) (response : bytes)     (* lines 86-87 *)
| SReturn (response : bytes)                   (* line 88 *)
| SRaised (e : exn).

Definition sender_step (E : env) (pc : send_pc) : M send_pc :=
  match pc with
  | SAcquire data =>
      connection ← MllpClient.acquire;
      mret (match connection with
            | None => SConnect data
            | Some c => SSend c data
            end)
  | SConnect data => c ← MllpClient._connect E; mret (SSend c data)
  | SSend c data => r ← MllpConnection.send E c data; mret (SRelease c r)
  | SRelease c r =>
      b ← MllpClient.rotate_or_stamp E c;
      mret (match b with
            | true => SAppend c r
            | false => SReturn r
            end)
  | SAppend c r => MllpClient.append c ;; mret (SReturn r)
  | SReturn r => mret (SReturn r)
  | SRaised e => mret (SRaised e)
  end.

Record config := mkConfig {
  shared : world;
  senders : list send_pc
}.

Inductive action :=
| Request (data : bytes)           (* a new thread calls send(data) *)
| Sender (i : nat) (E : env)       (* request thread i runs to its next point *)
| Watchdog (j : nat) (E : env).    (* watchdog thread j runs to its next point *)

(** A thread that raises is dead; the mutations it made remain. *)
Definition sender_next (E : env) (pc : send_pc) (w : world) : send_pc * world :=
  match sender_step E pc w with
  | (Ok pc', w') => (pc', w')
  | (Raise e, w') => (SRaised e, w')
  end.
Definition watchdog_next (E : env) (c : conn_id) (pc : wd_pc) (w : world)
  : wd_pc * world :=
  match MllpClient._check_connection E c pc w with
  | (Ok pc', w') => (pc', w')
  | (Raise e, w') => (WRaised e, w')
  end.

Definition step (a : action) (cfg : config) : config :=
  match a with
  | Request data => mkConfig (shared cfg) (senders cfg ++ [SAcquire data])
  | Sender i E =>
      match senders cfg !! i with
      | None => cfg
      | Some pc =>
          let '(pc', w') := sender_next E pc (shared cfg) in
          mkConfig w' (<[i := pc']> (senders cfg))
      end
  | Watchdog j E =>
      match watchdogs (shared cfg) !! j with
      | None => cfg
      | Some (c, pc) =>
          let '(pc', w') := watchdog_next E c pc (shared cfg) in
          mkConfig (set_watchdogs (<[j := (c, pc')]> (watchdogs w')) w') (senders cfg)
      end
  end.

Definition run (sched : list action) (cfg : config) : config :=
  foldl (fun cfg a => step a cfg) cfg sched.

Definition start (opts : MllpClientOptions) : config :=
  mkConfig (MllpClient.__init__ ("127.0.0.1"%string, 2575%Z) opts) [].

(** The connections leased to request threads. *)
Definition lease (pc : send_pc) : list conn_id :=
  match pc with
  | SSend c _ | SRelease c _ | SAppend c _ => [c]
  | _ => []
  end.
Definition leased (cfg : config) : list conn_id :=
  concat (lease <$> senders cfg).

(** Counting events of a trace. *)
Definition count (P : event -> bool) (tr : list event) : nat :=
  length (filter (fun e => P e = true) tr).
Definition is_connect (e : event) : bool :=
  match e with EvConnect _ => true | _ => false end.
Definition is_socket_close (e : event) : bool :=
  match e with EvSocketClose _ => true | _ => false end.
Definition is_send_mllp (e : event) : bool :=
  match e with EvSendMllp _ _ => true | _ => false end.

(** [guarded P held tr]: every event of [tr] that satisfies [P] happens
    while the lock is held; [held] says whether it is held at the start. *)
Fixpoint guarded (P : event -> bool) (held : bool) (tr : list event) : bool :=
  match tr with
  | [] => true
  | EvLock :: tr' => guarded P true tr'
  | EvUnlock :: tr' => guarded P false tr'
  | e :: tr' => (implb (P e) held) && guarded P held tr'
  end.
(** [unguarded P held tr]: every such event happens while it is free. *)
Fixpoint unguarded (P : event -> bool) (held : bool) (tr : list event) : bool :=
  match tr with
  | [] => true
  | EvLock :: tr' => unguarded P true tr'
  | EvUnlock :: tr' => unguarded P false tr'
  | e :: tr' => (implb (P e) (negb held)) && unguarded P held tr'
  end.

(** [n] consecutive steps of one request thread. *)
Fixpoint sender_steps (n : nat) (E : env) (pc : send_pc) (w : world)
  : send_pc * world :=
  match n with
  | 0 => (pc, w)
  | S n => let '(pc', w') := sender_next E pc w in sender_steps n E pc' w'
  end.

(** How the thread of a call of [send] ends. *)
Definition outcome (r : result bytes) : send_pc :=
  match r with
  | Ok response => SReturn response
  | Raise e => SRaised e
  end.

(** The connection that [send] uses in [w]: the last idle one, or else the
    object that [_connect] creates. *)
Definition lessee (w : world) : conn_id :=
  match py_pop (connections w) with
  | Some (_, c) => c
  | None => length (heap w)
  end.
(** [self.connections] after line 74. *)
Definition popped (w : world) : list conn_id :=
  match py_pop (connections w) with
  | Some (rest, _) => rest
  | None => []
  end.

Definition is_append (e : event) : bool :=
  match e with EvAppend _ => true | _ => false end.

(** The object that [send] uses in [w], as it is before the call: the
    idle one, or the one that [_connect] creates. *)
Definition before (w : world) : MllpConnection :=
  default (MllpConnection.__init__ (new_socket (options w))) (heap w !! lessee w).

(** The events of the acquisition of [send] in [w], when [connect] succeeds. *)
Definition acquisition (w : world) : list event :=
  match py_pop (connections w) with
  | Some (_, c) => [EvLock; EvPop (Some c); EvUnlock]
  | None =>
      [EvLock; EvPop None; EvUnlock; EvConnect true] ++
      match keep_alive (options w) with
      | Some _ => [EvSpawn (length (heap w))]
      | None => []
      end
  end.

(** [shutdown] or [close] of the socket of [c]. *)
Definition is_closing (c : conn_id) (e : event) : bool :=
  match e with
  | EvShutdown c' _ | EvSocketClose c' => bool_decide (c' = c)
  | _ => false
  end.

(** ** Ownership of connections

    [pool cfg]: the connections that are idle in [self.connections] or
    leased to a request thread. *)
Definition pool (cfg : config) : list conn_id :=
  connections (shared cfg) ++ leased cfg.

(** Every connection is idle at most once or leased to at most one thread,
    and names an object. *)
Definition Inv (cfg : config) : Prop :=
  NoDup (pool cfg) ∧ ∀ c, c ∈ pool cfg → c < length (heap (shared cfg)).

(** [c] is an object that is neither idle nor leased. *)
Definition discarded (c : conn_id) (cfg : config) : Prop :=
  c < length (heap (shared cfg)) ∧ c ∉ pool cfg.

(** The statements that keep a property of the world. *)
Definition keeps {A} (I : world → Prop) (m : M A) : Prop :=
  ∀ w, I w → I (m w).2.

(** Properties that only read the heap. *)
Definition on_heap (P : list MllpConnection → Prop) : world → Prop :=
  fun w => P (heap w).

(** No object has its attribute [closed] set. *)
Definition none_closed (h : list MllpConnection) : Prop :=
  Forall (fun o => closed o = false) h.

(** ** [class HttpsHandler]

    What [do_POST] reads of the request, and what it writes. *)

Inductive header_value :=
| HInt (n : Z)
| HStr (s : string).

Record request := mkRequest {
  int_content_length : result Z;  (* int(self.headers["Content-Length"]):
                                     TypeError when absent, ValueError when malformed *)
  rfile : bytes                   (* what the client sends before it stops *)
}.

Record http_response := mkResponse {
  status : Z;                                  (* send_response(code) *)
  headers : list (string * header_value);      (* send_header(...), in order *)
  wfile : bytes                                (* after end_headers() *)
}.

Record HttpsHandler := mkHandler {
  content_type : option string;
  h_timeout : option Z;
  h_keep_alive : option Z
}.

(** [self.rfile.read(n)]: at most [n] bytes, everything when [n] is negative. *)
Definition rfile_read (n : Z) (f : bytes) : bytes :=
  if (n <? 0)%Z then f else take (Z.to_nat n) f.

(** [f"{n}"] for an integer [n]. *)
Definition py_str (n : Z) : string :=
  DecimalString.NilZero.string_of_int (Z.to_int n).

Definition nonempty (s : option string) : bool :=
  match s with
  | Some (String _ _) => true
  | _ => false
  end.

Module HttpsHandlerM.

(** [do_POST(self)], lines 130-144. Logging and [print] are not modelled,
    nor the [Server] and [Date] headers that [send_response] adds. *)
Definition do_POST (self : HttpsHandler) (req : request) (E : env)
  : M http_response :=
  content_length ← lift (int_content_length req);
  let data := rfile_read content_length (rfile req) in
  response ← MllpClient.send E data;
  let h1 := [("Content-Length"%string, HInt (Z.of_nat (length response)))] in
  let h2 := if nonempty (content_type self)
            then [("Content-Type"%string, HStr (default ""%string (content_type self)))]
            else [] in
  let h3 := match h_keep_alive self with
            | Some k => [("Keep-Alive"%string, HStr ("timeout=" ++ py_str k)%string)]
            | None => []
            end in
  mret (mkResponse 201 (h1 ++ h2 ++ h3) response).

End HttpsHandlerM.

(** The values of the header [name] in a response. *)
Definition header (name : string) (r : http_response) : list header_value :=
  snd <$> filter (fun h => h.1 = name) (headers r).

(** ** Concrete inputs used below *)

Definition ack : bytes := ["A"; "C"; "K"]%byte.
Definition hl7 : bytes := ["M"; "S"; "H"]%byte.

(** The pool of the scenario: keep-alive 5, at most 3 messages, timeout 2. *)
Definition pooled : MllpClientOptions := mkOptions (Some 5%Z) 3%Z (Some 2%Z).

(** A network that answers, at time [t]. *)
Definition at_time (t : Z) : env :=
  mkEnv t (Ok tt) (fun _ _ => Ok ack) (Ok tt).
(** The server does not accept the connection. *)
Definition refused (t : Z) : env :=
  mkEnv t (Raise (OSError 111)) (fun _ _ => Ok ack) (Ok tt).
(** The server resets the connection before the acknowledgement. *)
Definition reset (t : Z) : env :=
  mkEnv t (Ok tt) (fun _ _ => Raise (OSError 104)) (Ok tt).

(** The first five steps of request thread [i]: a whole [send] when the
    thread is not interrupted. *)
Definition whole_send (i : nat) (E : env) : list action :=
  replicate 5 (Sender i E).
(** One iteration of the loop of watchdog [j] that does not sleep:
    the test, the body, the removal, the guarded close. *)
Definition iteration (j : nat) (E : env) : list action :=
  replicate 4 (Watchdog j E).

(** Two request threads that run in turn, one step each: both find the pool
    as the other left it one step before. *)
Definition concurrent_sends (E : env) : list action :=
  [Request hl7; Request hl7] ++ concat (replicate 5 [Sender 0 E; Sender 1 E]).



(** The watchdog is inside its loop, and not about to call [close()]. *)
Definition looping (pc : wd_pc) : bool :=
  match pc with
  | WTest | WBody | WSleep _ | WRemove => true
  | WClose | WExit | WRaised _ => false
  end.

(** Watchdog [j] watches [c], which the pool has discarded, and loops. *)
Definition orphan (c : conn_id) (j : nat) (cfg : config) : Prop :=
  discarded c cfg ∧
  none_closed (heap (shared cfg)) ∧
  is_Some (keep_alive (options (shared cfg))) ∧
  ∃ pc, watchdogs (shared cfg) !! j = Some (c, pc) ∧ looping pc = true.

(** [close()] was called on the object. *)
Definition dead (o : MllpConnection) : bool :=
  match inst_close o with
  | Some _ => true
  | None => negb (fd_open (socket o))
  end.

(** The objects that a step of a request thread at [pc] may write. *)
Definition touched (pc : send_pc) (w : world) : list conn_id :=
  match pc with
  | SAcquire _ =>
      match py_pop (connections w) with
      | Some (_, c) => [c]
      | None => []
      end
  | SConnect _ => [length (heap w)]
  | SSend c _ | SRelease c _ => [c]
  | SAppend _ _ | SReturn _ | SRaised _ => []
  end.

(** [socket.close()] on the socket of [c]. *)
Definition is_close_of (c : conn_id) (e : event) : bool :=
  match e with
  | EvSocketClose c' => bool_decide (c' = c)
  | _ => false
  end.

(** 1 when the socket of [c] is closed, 0 when it is open or not yet there. *)
Definition closed_socket (w : world) (c : conn_id) : nat :=
  match heap w !! c with
  | Some o => if fd_open (socket o) then 0 else 1
  | None => 0
  end.

(** What holds of every state that the program reaches from a new pool with
    the options [opts]: connections have one owner; the options are [opts];
    watchdog [j] watches connection [j]; an object on which [close()] was
    called is neither idle nor leased; a watchdog that is about to call
    [close()] holds a connection that is neither idle nor leased, on which
    [close()] was not called; a connection that is idle or about to be
    appended is below the bound; and the socket of a connection was closed
    once if it is closed, never if it is open. *)
Definition Sound (opts : MllpClientOptions) (cfg : config) : Prop :=
  Inv cfg ∧
  options (shared cfg) = opts ∧
  (watchdogs (shared cfg)).*1 =
    match keep_alive opts with
    | Some _ => seq 0 (length (heap (shared cfg)))
    | None => []
    end ∧
  (∀ c o, heap (shared cfg) !! c = Some o → dead o = true → c ∉ pool cfg) ∧
  (∀ j c, watchdogs (shared cfg) !! j = Some (c, WClose) →
          (c ∉ pool cfg) ∧ (∃ o, heap (shared cfg) !! c = Some o ∧ dead o = false)) ∧
  (∀ c o, heap (shared cfg) !! c = Some o →
          c ∈ connections (shared cfg) ∨ (∃ r, SAppend c r ∈ senders cfg) →
          at_bound opts o = false) ∧
  (∀ c, count (is_close_of c) (trace (shared cfg)) = closed_socket (shared cfg) c).

(** Calls of [send(data)] one after the other, call [k] in the environment
    [Es !! k]; the world after the last one. *)
Definition send_many (Es : list env) (data : bytes) (w : world) : world :=
  foldl (fun w E => (MllpClient.send E data w).2) w Es.

(** The network answers every call made for [send(data)]. *)
Definition answers (data : bytes) (E : env) : Prop :=
  connect E = Ok tt ∧ (∀ s, is_ok (send_mllp E s data) = true) ∧ shutdown E = Ok tt.

(** * Properties *)

(** ** Lists *)

Lemma py_pop_snoc {A} (l : list A) (x : A) : py_pop (l ++ [x]) = Some (l, x).
Proof.
  induction l as [|y l IH]; simpl; [done|]. by rewrite IH.
Qed.

Lemma py_pop_None {A} (l : list A) : py_pop l = None ↔ l = [].
Proof.
  split; [|by intros ->].
  destruct l as [|x l]; [done|]. simpl. by destruct (py_pop l) as [[??]|].
Qed.

Lemma py_pop_Some {A} (l rest : list A) (x : A) :
  py_pop l = Some (rest, x) ↔ l = rest ++ [x].
Proof.
  split; [|intros ->; apply py_pop_snoc].
  revert rest. induction l as [|y l IH]; intros rest; simpl; [done|].
  destruct (py_pop l) as [[r z]|] eqn:Hp.
  - intros [= <- <-]. by rewrite (IH r).
  - intros [= <- <-]. apply py_pop_None in Hp. by subst.
Qed.

Lemma py_remove_sublist c l l' : py_remove c l = Some l' → l' `sublist_of` l.
Proof.
  revert l'. induction l as [|x l IH]; intros l'; simpl; [done|].
  case_decide as Hx.
  - intros [= <-]. by apply sublist_cons.
  - destruct (py_remove c l) as [r|]; simpl; [|done].
    intros [= <-]. apply sublist_skip. by apply IH.
Qed.

Lemma py_remove_None c l : py_remove c l = None ↔ c ∉ l.
Proof.
  induction l as [|x l IH]; simpl.
  - split; [intros _; apply not_elem_of_nil|done].
  - case_decide as Hx.
    + subst. split; [done|]. intros []. apply list_elem_of_here.
    + destruct (py_remove c l) as [r|]; simpl.
      * split; [done|]. intros Hn. exfalso. apply (proj1 (not_elem_of_cons _ _ _)) in Hn.
        destruct Hn as [_ Hn]. by apply IH in Hn.
      * split; [|done]. intros _. apply not_elem_of_cons. split; [done|]. by apply IH.
Qed.

Lemma py_remove_NoDup c l l' : NoDup l → py_remove c l = Some l' → c ∉ l'.
Proof.
  revert l'. induction l as [|x l IH]; intros l' Hnd; simpl; [done|].
  apply NoDup_cons in Hnd as [Hx Hnd].
  case_decide as Hc.
  - intros [= <-]. by subst.
  - destruct (py_remove c l) as [r|] eqn:Hr; simpl; [|done].
    intros [= <-]. apply not_elem_of_cons. split; [done|]. by apply IH.
Qed.

Lemma submseteq_NoDup {A} (l k : list A) : l ⊆+ k → NoDup k → NoDup l.
Proof.
  intros Hs Hk. apply submseteq_Permutation in Hs as [k' Hp].
  rewrite Hp in Hk. by apply NoDup_app in Hk as [? _].
Qed.

(** ** Running [M] *)

Ltac mrun :=
  repeat progress (
    cbv beta iota zeta delta
      [mbind M_bind mret M_ret raise lift log deref modify get_options
       get_connections put_connections with_lock alloc spawn set_heap
       set_connections set_watchdogs emit] in *;
    simpl in *).

Section keeps.
Context (I : world → Prop).

Lemma keeps_ret {A} (a : A) : keeps I (mret a).
Proof. by intros w. Qed.

Lemma keeps_raise {A} (e : exn) : keeps I (raise e : M A).
Proof. by intros w. Qed.

Lemma keeps_lift {A} (r : result A) : keeps I (lift r).
Proof. by intros w. Qed.

Lemma keeps_bind {A B} (m : M A) (k : A → M B) :
  keeps I m → (∀ a, keeps I (k a)) → keeps I (m ≫= k).
Proof.
  intros Hm Hk w Hw. specialize (Hm w Hw).
  unfold mbind, M_bind. destruct (m w) as [[a|e] w1]; simpl in *; [|done].
  by apply Hk.
Qed.

Lemma keeps_deref c : keeps I (deref c).
Proof. intros w Hw. unfold deref. by destruct (heap w !! c). Qed.

Lemma keeps_get_options : keeps I get_options.
Proof. by intros w. Qed.

Lemma keeps_get_connections : keeps I get_connections.
Proof. by intros w. Qed.

End keeps.

Section on_heap.
Context (P : list MllpConnection → Prop).

Lemma keeps_log evs : keeps (on_heap P) (log evs).
Proof. by intros w. Qed.

Lemma keeps_put_connections l : keeps (on_heap P) (put_connections l).
Proof. by intros w. Qed.

Lemma keeps_spawn c : keeps (on_heap P) (spawn c).
Proof. by intros w. Qed.

Lemma keeps_with_lock {A} (body : M A) :
  keeps (on_heap P) body → keeps (on_heap P) (with_lock body).
Proof.
  intros Hb w Hw. unfold with_lock.
  pose proof (keeps_bind _ (log [EvLock]) (fun _ => body) (keeps_log _) (fun _ => Hb) w Hw) as H.
  destruct ((log [EvLock] ;; body) w) as [r w1]. exact H.
Qed.

Lemma keeps_modify c f :
  (∀ h o, P h → h !! c = Some o → P (<[c := f o]> h)) →
  keeps (on_heap P) (modify c f).
Proof.
  intros Hf w Hw. unfold modify, deref, mbind, M_bind.
  destruct (heap w !! c) as [o|] eqn:Ho; simpl; [|done].
  by apply Hf.
Qed.

Lemma keeps_alloc o :
  (∀ h, P h → P (h ++ [o])) → keeps (on_heap P) (alloc o).
Proof. intros Ho w Hw. by apply Ho. Qed.

End on_heap.

(** Walks through the statements of a function; [leaf] proves the
    statements that touch what the property reads. *)
Ltac keeps_walk leaf :=
  repeat first
    [ progress intros
    | lazymatch goal with
      | |- keeps _ (mbind _ _) => apply keeps_bind
      | |- keeps _ (mret _) => apply keeps_ret
      | |- keeps _ (raise _) => apply keeps_raise
      | |- keeps _ (lift _) => apply keeps_lift
      | |- keeps _ (deref _) => apply keeps_deref
      | |- keeps _ get_options => apply keeps_get_options
      | |- keeps _ get_connections => apply keeps_get_connections
      | |- keeps (on_heap _) (log _) => apply keeps_log
      | |- keeps (on_heap _) (put_connections _) => apply keeps_put_connections
      | |- keeps (on_heap _) (spawn _) => apply keeps_spawn
      | |- keeps (on_heap _) (with_lock _) => apply keeps_with_lock
      | |- keeps _ (match ?x with _ => _ end) => destruct x
      end
    | leaf ].

(** ** What each statement does *)

Ltac tr_norm := rewrite <- ?(assoc_L (++)); simpl.

Lemma acquire_pop w rest c o :
  connections w = rest ++ [c] → heap w !! c = Some o →
  MllpClient.acquire w =
    (Ok (Some c),
     emit [EvLock; EvPop (Some c); EvUnlock]
       (set_heap (<[c := set_last_update None o]> (heap w)) (set_connections rest w))).
Proof.
  intros Hc Ho. unfold MllpClient.acquire. mrun.
  rewrite Hc, py_pop_snoc. mrun. rewrite Ho. mrun. by tr_norm.
Qed.

Lemma acquire_empty w :
  connections w = [] →
  MllpClient.acquire w = (Ok None, emit [EvLock; EvPop None; EvUnlock] w).
Proof.
  intros Hc. unfold MllpClient.acquire. mrun. rewrite Hc. mrun. by tr_norm.
Qed.

Lemma connect_ok E w :
  connect E = Ok tt →
  MllpClient._connect E w =
    (Ok (length (heap w)),
     let w1 := set_heap (heap w ++ [MllpConnection.__init__ (new_socket (options w))])
                 (emit [EvConnect true] w) in
     match keep_alive (options w) with
     | Some _ => emit [EvSpawn (length (heap w))]
                   (set_watchdogs (watchdogs w ++ [(length (heap w), WTest)]) w1)
     | None => w1
     end).
Proof.
  intros Hc. unfold MllpClient._connect. mrun. rewrite Hc. mrun.
  destruct (keep_alive (options w)); mrun; by tr_norm.
Qed.

Lemma connect_raises E w e :
  connect E = Raise e →
  MllpClient._connect E w = (Raise e, emit [EvConnect false] w).
Proof.
  intros Hc. unfold MllpClient._connect. mrun. rewrite Hc. by mrun.
Qed.

Lemma connection_send_run E c data w o :
  heap w !! c = Some o →
  MllpConnection.send E c data w =
    (send_mllp E (socket o) data,
     emit [EvSendMllp c (is_ok (send_mllp E (socket o) data))]
       (set_heap (<[c := set_message_count (message_count o + 1) o]> (heap w)) w)).
Proof.
  intros Ho. unfold MllpConnection.send. mrun. rewrite Ho. mrun. rewrite Ho. mrun.
  by destruct (send_mllp E (socket o) data).
Qed.

Lemma close_run E c w o :
  heap w !! c = Some o → inst_close o = None →
  MllpConnection.close E c w =
    match shutdown E with
    | Ok _ =>
        (Ok tt,
         emit [EvShutdown c true; EvSocketClose c]
           (set_heap (<[c := set_socket (socket_close (socket o))
                               (set_inst_close (Some true) o)]> (heap w)) w))
    | Raise e =>
        (Raise e,
         emit [EvShutdown c false]
           (set_heap (<[c := set_inst_close (Some true) o]> (heap w)) w))
    end.
Proof.
  intros Ho Hc. unfold MllpConnection.close. mrun. rewrite Ho. mrun. rewrite Hc.
  mrun. rewrite Ho. mrun. destruct (shutdown E) as [[]|e]; mrun; [|done].
  rewrite list_lookup_insert_eq by (by eapply lookup_lt_Some). mrun.
  rewrite list_insert_insert_eq. by tr_norm.
Qed.

Lemma close_twice E c w o b :
  heap w !! c = Some o → inst_close o = Some b →
  MllpConnection.close E c w = (Raise TypeError, w).
Proof.
  intros Ho Hc. unfold MllpConnection.close. mrun. rewrite Ho. mrun. by rewrite Hc.
Qed.

Lemma append_run c w :
  MllpClient.append c w =
    (Ok tt, emit [EvLock; EvAppend c; EvUnlock] (set_connections (connections w ++ [c]) w)).
Proof. unfold MllpClient.append. mrun. by tr_norm. Qed.

Lemma exchange_run E c data w o :
  heap w !! c = Some o →
  let o1 := set_message_count (message_count o + 1) o in
  let r := send_mllp E (socket o) data in
  let w1 := emit [EvSendMllp c (is_ok r)] (set_heap (<[c := o1]> (heap w)) w) in
  MllpClient.exchange E c data w =
    match r with
    | Raise e => (Raise e, w1)
    | Ok response =>
        if at_bound (options w) o1 then
          match inst_close o, shutdown E with
          | Some _, _ => (Raise TypeError, w1)
          | None, Raise e =>
              (Raise e,
               emit [EvShutdown c false]
                 (set_heap (<[c := set_inst_close (Some true) o1]> (heap w)) w1))
          | None, Ok _ =>
              (Ok response,
               emit [EvShutdown c true; EvSocketClose c]
                 (set_heap (<[c := set_socket (socket_close (socket o))
                                     (set_inst_close (Some true) o1)]> (heap w)) w1))
          end
        else
          (Ok response,
           emit [EvLock; EvAppend c; EvUnlock]
             (set_connections (connections w ++ [c])
                (set_heap (<[c := set_last_update (Some (monotonic E)) o1]> (heap w)) w1)))
    end.
Proof.
  intros Ho o1 r w1. unfold MllpClient.exchange.
  assert (Hlt : c < length (heap w)) by (by eapply lookup_lt_Some).
  unfold mbind at 1, M_bind at 1. rewrite (connection_send_run _ _ _ _ _ Ho).
  fold o1 r w1. destruct r as [response|e] eqn:Hr; [|done].
  assert (Ho1 : heap w1 !! c = Some o1).
  { subst w1. simpl. by rewrite list_lookup_insert_eq. }
  mrun. rewrite list_lookup_insert_eq by done. mrun.
  destruct (at_bound (options w) o1) eqn:Hb.
  - destruct (inst_close o) as [b|] eqn:Hc.
    + erewrite (close_twice _ _ _ o1 b); [done| |done].
      simpl. by rewrite list_lookup_insert_eq.
    + erewrite (close_run _ _ _ o1); [| |done].
      2:{ simpl. by rewrite list_lookup_insert_eq. }
      destruct (shutdown E) as [[]|e]; subst w1; mrun;
        rewrite list_insert_insert_eq; by tr_norm.
  - mrun. rewrite list_lookup_insert_eq by done. mrun.
    rewrite list_insert_insert_eq. by tr_norm.
Qed.

Lemma send_pop E data w rest c o :
  connections w = rest ++ [c] → heap w !! c = Some o →
  MllpClient.send E data w =
    MllpClient.exchange E c data
      (emit [EvLock; EvPop (Some c); EvUnlock]
         (set_heap (<[c := set_last_update None o]> (heap w)) (set_connections rest w))).
Proof.
  intros Hc Ho. unfold MllpClient.send.
  unfold mbind at 1, M_bind at 1. by rewrite (acquire_pop _ _ _ _ Hc Ho).
Qed.

(** The world after a successful [_connect]. *)
Lemma send_connect E data w :
  connections w = [] → connect E = Ok tt →
  MllpClient.send E data w =
    MllpClient.exchange E (length (heap w)) data
      (MllpClient._connect E (emit [EvLock; EvPop None; EvUnlock] w)).2.
Proof.
  intros Hc Hok. unfold MllpClient.send.
  unfold mbind at 1, M_bind at 1. rewrite (acquire_empty _ Hc).
  unfold mbind at 1, M_bind at 1. by rewrite (connect_ok _ _ Hok).
Qed.

Lemma send_refused E data w e :
  connections w = [] → connect E = Raise e →
  MllpClient.send E data w =
    (Raise e, emit [EvLock; EvPop None; EvUnlock; EvConnect false] w).
Proof.
  intros Hc Hno. unfold MllpClient.send.
  unfold mbind at 1, M_bind at 1. rewrite (acquire_empty _ Hc).
  unfold mbind at 1, M_bind at 1. rewrite (connect_raises _ _ _ Hno).
  unfold emit. simpl. by tr_norm.
Qed.

Lemma since_app w w' d : trace w' = trace w ++ d → since w w' = d.
Proof. intros H. unfold since. by rewrite H, drop_app_length. Qed.

(** The new object of [_connect] is where [alloc] put it. *)
Lemma connect_lookup E w :
  connect E = Ok tt →
  heap (MllpClient._connect E w).2 !! length (heap w) =
    Some (MllpConnection.__init__ (new_socket (options w))).
Proof.
  intros Hok. rewrite (connect_ok _ _ Hok). simpl.
  destruct (keep_alive (options w)); simpl;
    by rewrite lookup_app_r, Nat.sub_diag by done.
Qed.

Lemma connect_trace E w :
  connect E = Ok tt →
  trace (MllpClient._connect E w).2 =
    trace w ++ EvConnect true ::
      match keep_alive (options w) with
      | Some _ => [EvSpawn (length (heap w))]
      | None => []
      end.
Proof.
  intros Hok. rewrite (connect_ok _ _ Hok). simpl.
  destruct (keep_alive (options w)); simpl; by tr_norm.
Qed.

Lemma connect_connections E w :
  connections (MllpClient._connect E w).2 = connections w.
Proof.
  unfold MllpClient._connect. mrun.
  destruct (connect E) as [[]|e]; mrun; [|done].
  by destruct (keep_alive (options w)).
Qed.

Lemma connect_options E w : options (MllpClient._connect E w).2 = options w.
Proof.
  unfold MllpClient._connect. mrun.
  destruct (connect E) as [[]|e]; mrun; [|done].
  by destruct (keep_alive (options w)).
Qed.

(** ** Threads run the functions *)

Lemma sender_steps_return n E r w : sender_steps n E (SReturn r) w = (SReturn r, w).
Proof. induction n as [|n IH]; [done|]. exact IH. Qed.

Lemma sender_steps_raised n E e w : sender_steps n E (SRaised e) w = (SRaised e, w).
Proof. induction n as [|n IH]; [done|]. exact IH. Qed.

Lemma exchange_as_steps n E c data w :
  sender_steps (3 + n) E (SSend c data) w =
    (outcome (MllpClient.exchange E c data w).1, (MllpClient.exchange E c data w).2).
Proof.
  cbn [sender_steps Nat.add].
  unfold sender_next at 1, sender_step, MllpClient.exchange.
  cbv beta iota zeta delta [mbind M_bind mret M_ret get_options deref].
  destruct (MllpConnection.send E c data w) as [[r|e] w2]; simpl;
    [|by rewrite sender_steps_raised].
  unfold sender_next at 1, sender_step, MllpClient.rotate_or_stamp.
  cbv beta iota zeta delta [mbind M_bind mret M_ret get_options deref].
  destruct (heap w2 !! c) as [o|]; simpl; [|by rewrite sender_steps_raised].
  destruct (at_bound (options w2) o); simpl.
  - destruct (MllpConnection.close E c w2) as [[[]|e] w3]; simpl.
    + apply (sender_steps_return (S n)).
    + apply (sender_steps_raised (S n)).
  - destruct (modify c (set_last_update (Some (monotonic E))) w2) as [[[]|e] w3];
      simpl; [|apply (sender_steps_raised (S n))].
    apply sender_steps_return.
Qed.

(** A request thread that is not interrupted runs [send]. *)
Lemma send_as_steps E data w :
  sender_steps 5 E (SAcquire data) w =
    (outcome (MllpClient.send E data w).1, (MllpClient.send E data w).2).
Proof.
  unfold MllpClient.send.
  cbn [sender_steps].
  unfold sender_next at 1, sender_step.
  cbv beta iota zeta delta [mbind M_bind mret M_ret].
  destruct (MllpClient.acquire w) as [[[c|]|e] w1]; simpl;
    [| |done].
  - apply (exchange_as_steps 1).
  - unfold sender_next at 1, sender_step.
    cbv beta iota zeta delta [mbind M_bind mret M_ret].
    destruct (MllpClient._connect E w1) as [[c|e] w2]; simpl;
      [|done].
    apply (exchange_as_steps 0).
Qed.

Lemma run_sender_steps n i E cfg pc :
  senders cfg !! i = Some pc →
  run (replicate n (Sender i E)) cfg =
    mkConfig (sender_steps n E pc (shared cfg)).2
      (<[i := (sender_steps n E pc (shared cfg)).1]> (senders cfg)).
Proof.
  revert cfg pc. induction n as [|n IH]; intros cfg pc Hi; simpl.
  - rewrite list_insert_id by done. by destruct cfg.
  - rewrite Hi. destruct (sender_next E pc (shared cfg)) as [pc' w'] eqn:Hn.
    erewrite IH; [|simpl; apply list_lookup_insert_eq; by eapply lookup_lt_Some].
    simpl. by rewrite list_insert_insert_eq.
Qed.

(** A new request thread that runs [send] without being interrupted: the
    world is the one [send] returns, the thread has returned or raised, and
    the other threads are where they were. *)
Lemma run_whole_send E data cfg :
  run (Request data :: whole_send (length (senders cfg)) E) cfg =
    mkConfig (MllpClient.send E data (shared cfg)).2
      (senders cfg ++ [outcome (MllpClient.send E data (shared cfg)).1]).
Proof.
  unfold whole_send.
  change (run (Request data :: replicate 5 (Sender (length (senders cfg)) E)) cfg)
    with (run (replicate 5 (Sender (length (senders cfg)) E)) (step (Request data) cfg)).
  erewrite (run_sender_steps 5 _ E _ (SAcquire data));
    [|simpl; by rewrite lookup_app_r, Nat.sub_diag].
  simpl shared. simpl senders. rewrite send_as_steps. simpl.
  rewrite insert_app_r_alt, Nat.sub_diag by done. done.
Qed.

(** ** Connections have one owner *)

Ltac crush_step :=
  mrun; repeat (case_match; mrun); simplify_eq; mrun.

Ltac own_close :=
  rewrite ?length_insert, ?app_nil_r;
  split; [done|];
  first [ done | by apply submseteq_inserts_r ].

Lemma sender_next_own E pc w pc' w' :
  sender_next E pc w = (pc', w') →
  (length (heap w') = length (heap w) ∧
   connections w' ++ lease pc' ⊆+ connections w ++ lease pc)
  ∨ (length (heap w') = S (length (heap w)) ∧ connections w' = connections w ∧
     lease pc = [] ∧ lease pc' = [length (heap w)]).
Proof.
  unfold sender_next. destruct pc; simpl.
  - unfold MllpClient.acquire. intros H. left. crush_step;
      repeat match goal with
             | H : py_pop _ = Some _ |- _ => apply py_pop_Some in H; rewrite H
             end; own_close.
  - unfold MllpClient._connect. intros H. crush_step; try (left; done).
    all: right; rewrite length_app; simpl; split_and!; try done; try lia.
  - unfold MllpConnection.send. intros H. left. crush_step; own_close.
  - unfold MllpClient.rotate_or_stamp, MllpConnection.close. intros H. left.
    crush_step; own_close.
  - unfold MllpClient.append. intros H. left. crush_step. own_close.
  - intros H. left. crush_step. own_close.
  - intros H. left. crush_step. own_close.
Qed.

Lemma watchdog_next_own E c pc w pc' w' :
  watchdog_next E c pc w = (pc', w') →
  length (heap w') = length (heap w) ∧ connections w' ⊆+ connections w ∧
  length (watchdogs w') = length (watchdogs w).
Proof.
  unfold watchdog_next, MllpClient._check_connection, MllpConnection.close.
  intros H. destruct pc; crush_step; rewrite ?length_insert; split_and!; try done.
  all: by eapply sublist_submseteq, py_remove_sublist.
Qed.

Lemma leased_insert (l : list send_pc) i pc pc' :
  l !! i = Some pc →
  ∃ A B, concat (lease <$> l) = A ++ lease pc ++ B ∧
         concat (lease <$> <[i := pc']> l) = A ++ lease pc' ++ B.
Proof.
  intros Hi. exists (concat (lease <$> take i l)), (concat (lease <$> drop (S i) l)).
  split.
  - rewrite <- (take_drop_middle l i pc Hi) at 1.
    by rewrite fmap_app, concat_app, fmap_cons, concat_cons.
  - rewrite insert_take_drop by (by eapply lookup_lt_Some).
    by rewrite fmap_app, concat_app, fmap_cons, concat_cons.
Qed.

Lemma step_own a cfg :
  let cfg' := step a cfg in
  (length (heap (shared cfg')) = length (heap (shared cfg)) ∧ pool cfg' ⊆+ pool cfg)
  ∨ (length (heap (shared cfg')) = S (length (heap (shared cfg))) ∧
     pool cfg' ≡ₚ length (heap (shared cfg)) :: pool cfg).
Proof.
  destruct a as [data|i E|j E]; simpl.
  - left. split; [done|]. unfold pool, leased. simpl.
    by rewrite fmap_app, concat_app, !app_nil_r.
  - destruct (senders cfg !! i) as [pc|] eqn:Hi; [|by left].
    destruct (sender_next E pc (shared cfg)) as [pc' w'] eqn:Hs.
    destruct (leased_insert _ _ _ pc' Hi) as (A & B & HA & HB).
    unfold pool, leased. simpl. rewrite HA, HB.
    destruct (sender_next_own _ _ _ _ _ Hs) as [[Hl Hsub]|(Hl & Hc & Hp & Hp')].
    + left. split; [done|].
      assert (connections w' ++ A ++ lease pc' ++ B ≡ₚ
              (connections w' ++ lease pc') ++ A ++ B) as -> by solve_Permutation.
      assert (connections (shared cfg) ++ A ++ lease pc ++ B ≡ₚ
              (connections (shared cfg) ++ lease pc) ++ A ++ B) as -> by solve_Permutation.
      by apply submseteq_app.
    + right. split; [done|]. rewrite Hc, Hp, Hp'. simpl. solve_Permutation.
  - destruct (watchdogs (shared cfg) !! j) as [[c pc]|] eqn:Hj; [|by left].
    destruct (watchdog_next E c pc (shared cfg)) as [pc' w'] eqn:Hw.
    destruct (watchdog_next_own _ _ _ _ _ _ Hw) as (Hl & Hsub & _).
    left. split; [done|]. unfold pool, leased. simpl. by apply submseteq_app.
Qed.

Lemma Inv_step a cfg : Inv cfg → Inv (step a cfg).
Proof.
  intros [Hnd Hlt]. destruct (step_own a cfg) as [[Hl Hsub]|[Hl Hp]]; split.
  - by eapply submseteq_NoDup.
  - intros c Hc. rewrite Hl. apply Hlt. by eapply elem_of_submseteq.
  - rewrite Hp. apply NoDup_cons. split; [|done].
    intros Hin. apply Hlt in Hin. lia.
  - intros c Hc. rewrite Hl. rewrite Hp in Hc.
    apply elem_of_cons in Hc as [->|Hc]; [lia|]. apply Hlt in Hc. lia.
Qed.

Lemma Inv_run sched cfg : Inv cfg → Inv (run sched cfg).
Proof.
  revert cfg. induction sched as [|a sched IH]; intros cfg H; simpl; [done|].
  by apply IH, Inv_step.
Qed.

Lemma Inv_start opts : Inv (start opts).
Proof. split; [constructor|]. intros c Hc. by apply elem_of_nil in Hc. Qed.

Lemma discarded_step a c cfg : discarded c cfg → discarded c (step a cfg).
Proof.
  intros [Hlt Hn]. destruct (step_own a cfg) as [[Hl Hsub]|[Hl Hp]]; split.
  - by rewrite Hl.
  - intros Hin. apply Hn. by eapply elem_of_submseteq.
  - rewrite Hl. lia.
  - rewrite Hp. intros Hin. apply elem_of_cons in Hin as [->|Hin]; [lia|done].
Qed.

Lemma discarded_run sched c cfg : discarded c cfg → discarded c (run sched cfg).
Proof.
  revert cfg. induction sched as [|a sched IH]; intros cfg H; simpl; [done|].
  by apply IH, discarded_step.
Qed.

(** ** The attribute [closed] is never written *)

Lemma none_closed_insert h c o f :
  (∀ o, closed (f o) = closed o) →
  none_closed h → h !! c = Some o → none_closed (<[c := f o]> h).
Proof.
  intros Hf Hh Ho. apply Forall_insert; [done|].
  rewrite Hf. by apply (Forall_lookup_1 _ _ _ _ Hh Ho).
Qed.

Lemma keeps_modify_closed c f :
  (∀ o, closed (f o) = closed o) →
  keeps (on_heap none_closed) (modify c f).
Proof.
  intros Hf. apply keeps_modify. intros h o. by apply none_closed_insert.
Qed.

Lemma keeps_alloc_closed s :
  keeps (on_heap none_closed) (alloc (MllpConnection.__init__ s)).
Proof.
  apply keeps_alloc. intros h Hh. apply Forall_app. split; [done|].
  by apply Forall_singleton.
Qed.

Ltac closed_leaf :=
  first [ by apply keeps_modify_closed | apply keeps_alloc_closed ].

Lemma close_keeps_none_closed E c :
  keeps (on_heap none_closed) (MllpConnection.close E c).
Proof. unfold MllpConnection.close. keeps_walk closed_leaf. Qed.

Lemma connection_send_keeps_none_closed E c data :
  keeps (on_heap none_closed) (MllpConnection.send E c data).
Proof. unfold MllpConnection.send. keeps_walk closed_leaf. Qed.

Lemma check_connection_keeps_none_closed E c pc :
  keeps (on_heap none_closed) (MllpClient._check_connection E c pc).
Proof.
  unfold MllpClient._check_connection.
  keeps_walk ltac:(first [closed_leaf | apply close_keeps_none_closed]).
Qed.

Lemma sender_step_keeps_none_closed E pc :
  keeps (on_heap none_closed) (sender_step E pc).
Proof.
  unfold sender_step, MllpClient.acquire, MllpClient._connect,
    MllpClient.rotate_or_stamp, MllpClient.append.
  keeps_walk ltac:(first [closed_leaf | apply close_keeps_none_closed
                         | apply connection_send_keeps_none_closed]).
Qed.

Lemma step_keeps_none_closed a cfg :
  none_closed (heap (shared cfg)) → none_closed (heap (shared (step a cfg))).
Proof.
  intros H. destruct a as [data|i E|j E]; simpl; [done| |].
  - destruct (senders cfg !! i) as [pc|]; [|done].
    pose proof (sender_step_keeps_none_closed E pc (shared cfg) H) as Hk.
    unfold sender_next. by destruct (sender_step E pc (shared cfg)) as [[pc'|e] w'].
  - destruct (watchdogs (shared cfg) !! j) as [[c pc]|]; [|done].
    pose proof (check_connection_keeps_none_closed E c pc (shared cfg) H) as Hk.
    unfold watchdog_next.
    by destruct (MllpClient._check_connection E c pc (shared cfg)) as [[pc'|e] w'].
Qed.

Lemma run_keeps_none_closed sched cfg :
  none_closed (heap (shared cfg)) → none_closed (heap (shared (run sched cfg))).
Proof.
  revert cfg. induction sched as [|a sched IH]; intros cfg H; simpl; [done|].
  apply IH. by apply step_keeps_none_closed.
Qed.

Lemma fmap_insert_same {A B} (f : A → B) (h : list A) (c : nat) (o o' : A) :
  h !! c = Some o → f o' = f o → f <$> <[c := o']> h = f <$> h.
Proof.
  intros Ho Hf. rewrite list_fmap_insert, Hf.
  apply list_insert_id. by rewrite list_lookup_fmap, Ho.
Qed.

(** C10. [MllpConnection.close] never sets the attribute [closed]: an object
    is created with [closed = False]; a call of [close()], whether it returns
    or raises, leaves the [closed] attribute of every object as it was; when
    it returns it has bound the instance attribute [close] to [True], so that
    a second [close()] on the same object raises [TypeError] and changes
    nothing; and in every state the program can reach from a new pool, under
    every schedule of its threads, no object has [closed] set. *)
Theorem close_never_sets_closed (E E' : env) (c : conn_id) (w : world) :
  let out := MllpConnection.close E c w in
  (∀ s, closed (MllpConnection.__init__ s) = false) ∧
  closed <$> heap out.2 = closed <$> heap w ∧
  (out.1 = Ok tt →
     inst_close <$> heap out.2 !! c = Some (Some true) ∧
     MllpConnection.close E' c out.2 = (Raise TypeError, out.2)) ∧
  (∀ opts sched, none_closed (heap (shared (run sched (start opts))))).
Proof.
  intros out. split; [done|]. split; [|split].
  - subst out. unfold MllpConnection.close. mrun.
    destruct (heap w !! c) as [o|] eqn:Ho; simpl; [|done].
    destruct (inst_close o) eqn:Hc; simpl; [done|].
    rewrite Ho. simpl.
    destruct (shutdown E) as [[]|e]; simpl.
    + rewrite list_lookup_insert_eq by (by eapply lookup_lt_Some). simpl.
      rewrite list_insert_insert_eq.
      by apply fmap_insert_same with o.
    + by apply fmap_insert_same with o.
  - subst out. unfold MllpConnection.close. mrun.
    destruct (heap w !! c) as [o|] eqn:Ho; simpl; [|done].
    destruct (inst_close o) eqn:Hc; simpl; [done|].
    rewrite Ho. simpl.
    destruct (shutdown E) as [[]|e]; simpl; [|done]. intros _.
    rewrite list_lookup_insert_eq by (by eapply lookup_lt_Some). simpl.
    rewrite list_insert_insert_eq.
    rewrite list_lookup_insert_eq by (by eapply lookup_lt_Some). simpl.
    done.
  - intros opts sched. apply run_keeps_none_closed. constructor.
Qed.

Lemma close_never_sets_closed_witness :
  let w := (MllpClient.send (at_time 0) hl7
              (MllpClient.__init__ (""%string, 0%Z) (mkOptions None (-1) None))).2 in
  let out := MllpConnection.close (at_time 1) 0 w in
  out.1 = Ok tt ∧
  closed <$> heap out.2 !! 0 = Some false ∧
  inst_close <$> heap out.2 !! 0 = Some (Some true) ∧
  MllpConnection.close (at_time 2) 0 out.2 = (Raise TypeError, out.2).
Proof.
  intros w out.
  destruct (close_never_sets_closed (at_time 1) (at_time 2) 0 w) as (_ & _ & H & _).
  destruct (H eq_refl) as [H1 H2].
  split; [reflexivity|]. split; [reflexivity|]. split; [exact H1|exact H2].
Defined.

(** ** Errors of the network *)

Ltac since_now :=
  erewrite since_app; [|simpl; rewrite ?connect_trace by done; simpl; tr_norm; reflexivity].

(** C7. A network error raised by [connect] or by the send/receive of
    [send_mllp] is what [MllpClient.send] raises to its caller, after a
    single attempt (one [connect] at most, one [send_mllp]): when the pool
    is empty and [connect] raises, [send] raises the same error and leaves
    [self.connections], the objects and the watchdogs as they were, having
    tried to connect once; when [send_mllp] raises, [send] raises the same
    error and has called [send_mllp] once. *)
Theorem send_propagates_network_errors (E : env) (data : bytes) (w : world) (e : exn) :
  let out := MllpClient.send E data w in
  (connections w = [] → connect E = Raise e →
     out.1 = Raise e ∧
     connections out.2 = connections w ∧ heap out.2 = heap w ∧
     watchdogs out.2 = watchdogs w ∧
     since w out.2 = [EvLock; EvPop None; EvUnlock; EvConnect false]) ∧
  ((∀ c, c ∈ connections w → c < length (heap w)) →
   (connections w = [] → connect E = Ok tt) →
   (∀ s, send_mllp E s data = Raise e) →
     out.1 = Raise e ∧
     count is_send_mllp (since w out.2) = 1 ∧
     count is_connect (since w out.2) ≤ 1).
Proof.
  intros out. split.
  - intros Hc Hno. subst out. rewrite (send_refused _ _ _ _ Hc Hno). simpl.
    split_and!; try done. by since_now.
  - intros Hwf Hok Hio. subst out.
    destruct (py_pop (connections w)) as [[rest c]|] eqn:Hpop.
    + apply py_pop_Some in Hpop.
      destruct (heap w !! c) as [o|] eqn:Ho.
      2:{ apply lookup_ge_None in Ho.
          assert (c < length (heap w)); [|lia].
          apply Hwf. rewrite Hpop. apply elem_of_app. right. apply list_elem_of_here. }
      rewrite (send_pop _ _ _ _ _ _ Hpop Ho).
      erewrite exchange_run; [|simpl; apply list_lookup_insert_eq; by eapply lookup_lt_Some].
      simpl. rewrite Hio. simpl. split; [done|]. since_now. compute. split; [done|lia].
    + apply py_pop_None in Hpop. specialize (Hok Hpop).
      rewrite (send_connect _ _ _ Hpop Hok).
      erewrite exchange_run; [|exact (connect_lookup E (emit [EvLock; EvPop None; EvUnlock] w) Hok)].
      simpl. rewrite Hio. simpl. split; [done|]. since_now.
      destruct (keep_alive (options w)); compute; (split; [done|lia]).
Qed.

Lemma send_propagates_network_errors_witness :
  (MllpClient.send (refused 0) hl7 (shared (start pooled))).1 = Raise (OSError 111) ∧
  connections (MllpClient.send (refused 0) hl7 (shared (start pooled))).2 = [] ∧
  (MllpClient.send (reset 0) hl7 (shared (start pooled))).1 = Raise (OSError 104).
Proof.
  destruct (send_propagates_network_errors (refused 0) hl7 (shared (start pooled))
              (OSError 111)) as [H1 _].
  destruct (send_propagates_network_errors (reset 0) hl7 (shared (start pooled))
              (OSError 104)) as [_ H2].
  destruct (H1 eq_refl eq_refl) as (Ha & Hb & _).
  split; [exact Ha|]. split; [exact Hb|].
  apply H2.
  - intros c Hc. by apply elem_of_nil in Hc.
  - reflexivity.
  - reflexivity.
Defined.

(** ** The connection that [send] uses *)

Lemma at_bound_spec opts o :
  at_bound opts o = true ↔
  (0 ≤ max_messages opts ∧ max_messages opts ≤ message_count o)%Z.
Proof. unfold at_bound. rewrite andb_true_iff. lia. Qed.

Lemma lessee_not_pooled w others :
  Inv (mkConfig w others) →
  lessee w < length (heap w) + 1 ∧
  (∀ c, c ∈ popped w ++ concat (lease <$> others) → c < length (heap w)) ∧
  lessee w ∉ popped w ++ concat (lease <$> others).
Proof.
  intros [Hnd Hlt]. unfold pool, leased, lessee, popped in *. simpl in *.
  destruct (py_pop (connections w)) as [[rest c]|] eqn:Hpop.
  - apply py_pop_Some in Hpop. rewrite Hpop in *.
    assert (rest ++ [c] ++ concat (lease <$> others) ≡ₚ
            c :: rest ++ concat (lease <$> others)) as Hp by solve_Permutation.
    rewrite <- (assoc_L (++)) in Hnd, Hlt. split_and!.
    + assert (c < length (heap w)); [|lia]. apply Hlt. rewrite Hp. apply list_elem_of_here.
    + intros x Hx. apply Hlt. rewrite Hp. by apply list_elem_of_further.
    + rewrite Hp in Hnd. by apply NoDup_cons in Hnd as [? _].
  - apply py_pop_None in Hpop. rewrite Hpop in *. simpl in *. split_and!.
    + lia.
    + done.
    + intros Hin. apply Hlt in Hin. lia.
Qed.

Lemma send_acquired E data w others :
  Inv (mkConfig w others) →
  (connections w = [] → connect E = Ok tt) →
  ∃ w0,
    MllpClient.send E data w = MllpClient.exchange E (lessee w) data w0 ∧
    heap w0 !! lessee w = Some (set_last_update None (before w)) ∧
    length (heap w0) = S (lessee w) `max` length (heap w) ∧
    connections w0 = popped w ∧ options w0 = options w ∧
    trace w0 = trace w ++ acquisition w.
Proof.
  intros HI Hok. destruct (lessee_not_pooled _ _ HI) as (Hlt & _ & _).
  unfold before, lessee, popped, acquisition in *.
  destruct (py_pop (connections w)) as [[rest c]|] eqn:Hpop.
  - apply py_pop_Some in Hpop.
    destruct (heap w !! c) as [o|] eqn:Ho.
    2:{ destruct HI as [_ HI]. apply lookup_ge_None in Ho.
        assert (c < length (heap w)); [|lia]. apply HI. unfold pool. simpl.
        rewrite Hpop. apply elem_of_app. left. apply elem_of_app. right.
        apply list_elem_of_here. }
    eexists. split; [by apply send_pop|]. simpl.
    assert (c < length (heap w)) by (by eapply lookup_lt_Some).
    rewrite list_lookup_insert_eq by done. rewrite length_insert.
    split_and!; try done. lia.
  - apply py_pop_None in Hpop. specialize (Hok Hpop).
    eexists. split; [by apply send_connect|].
    cbv beta iota. rewrite (lookup_ge_None_2 (heap w) (length (heap w))) by lia. simpl.
    pose proof (connect_lookup E (emit [EvLock; EvPop None; EvUnlock] w) Hok) as Hl.
    simpl in Hl. rewrite Hl.
    rewrite connect_connections, connect_options, connect_trace by done. simpl.
    rewrite (connect_ok _ _ Hok). simpl.
    split_and!; try done.
    + destruct (keep_alive (options w)); simpl; rewrite length_app; simpl; lia.
    + by tr_norm.
Qed.

Lemma since_acquired w w0 w' d :
  trace w0 = trace w ++ acquisition w → trace w' = trace w0 ++ d →
  since w w' = acquisition w ++ d.
Proof. intros H0 H'. apply since_app. by rewrite H', H0, (assoc_L (++)). Qed.

(** The cases of [acquisition w], to evaluate a property of a trace. *)
Ltac acquisition_cases w :=
  unfold acquisition, lessee;
  destruct (py_pop (connections w)) as [[? ?]|];
    [|destruct (keep_alive (options w))];
  simpl.

(** C9. When the send-and-await-ack on the leased connection raises,
    [MllpClient.send] raises the same error and the connection is neither
    closed nor returned to the pool: its object is as before the call but
    for [message_count], incremented, and [last_update], [None]; neither
    [shutdown] nor [close] was called on its socket; [self.connections] is
    what the initial [pop] left (untouched when a new socket was
    connected); and the connection is in no bookkeeping of the pool, now
    and under every later schedule of the threads: neither idle nor
    leased. *)
Theorem failed_exchange_drops_connection
    (E : env) (data : bytes) (w : world) (others : list send_pc) (e : exn) :
  Inv (mkConfig w others) →
  (connections w = [] → connect E = Ok tt) →
  (∀ s, send_mllp E s data = Raise e) →
  let out := MllpClient.send E data w in
  let c := lessee w in
  out.1 = Raise e ∧
  heap out.2 !! c =
    Some (set_message_count (message_count (before w) + 1)
            (set_last_update None (before w))) ∧
  count (is_closing c) (since w out.2) = 0 ∧
  connections out.2 = popped w ∧
  (c ∉ connections out.2) ∧
  (∀ sched, c ∉ pool (run sched (mkConfig out.2 others))).
Proof.
  intros HI Hok Hio out c.
  destruct (send_acquired E data w others HI Hok)
    as (w0 & Hs & Ho & Hlen & Hc & Hopt & Htr).
  destruct (lessee_not_pooled _ _ HI) as (Hlt & Hbound & Hfresh).
  subst out c. rewrite Hs, (exchange_run _ _ _ _ _ Ho). simpl. rewrite Hio. simpl.
  assert (Hdisc : discarded (lessee w) (mkConfig
    (emit [EvSendMllp (lessee w) false]
       (set_heap (<[lessee w := set_message_count (message_count (before w) + 1)
                    (set_last_update None (before w))]> (heap w0)) w0)) others)).
  { split; simpl.
    - rewrite length_insert, Hlen. lia.
    - unfold pool, leased. simpl. by rewrite Hc. }
  split_and!.
  - done.
  - apply list_lookup_insert_eq. rewrite Hlen. lia.
  - erewrite since_acquired; [|done|reflexivity].
    by acquisition_cases w.
  - done.
  - rewrite Hc. intros Hin. apply Hfresh. apply elem_of_app. by left.
  - intros sched. by destruct (discarded_run sched _ _ Hdisc) as [_ ?].
Qed.

Lemma failed_exchange_drops_connection_witness :
  let w := (MllpClient.send (at_time 0) hl7 (shared (start pooled))).2 in
  let out := MllpClient.send (reset 1) hl7 w in
  connections w = [0] ∧
  out.1 = Raise (OSError 104) ∧
  connections out.2 = [] ∧
  fd_open <$> (socket <$> heap out.2 !! 0) = Some true.
Proof.
  intros w out.
  assert (HI : Inv (mkConfig w [])).
  { split.
    - apply NoDup_cons. split; [apply not_elem_of_nil|apply NoDup_nil_2].
    - intros c Hc. apply list_elem_of_singleton in Hc. subst c. simpl. lia. }
  destruct (failed_exchange_drops_connection (reset 1) hl7 w [] (OSError 104) HI)
    as (H1 & H2 & _ & H4 & _).
  - intros Hc. discriminate Hc.
  - reflexivity.
  - split; [reflexivity|]. split; [exact H1|]. split; [exact H4|].
    change (lessee w) with 0 in H2. unfold out. rewrite H2. reflexivity.
Defined.

(** ** Release *)

(** C1. After a successful [MllpClient.send], with [message_count] the
    count of the connection after the send: when [max_messages] is
    non-negative and [message_count >= max_messages], the socket of the
    connection is closed ([shutdown], then [close]), the connection is not
    appended to [self.connections], and under every later schedule of the
    threads it is neither idle nor leased, so that no acquisition returns it;
    otherwise its [last_update] is the current time and it is appended at
    the end of [self.connections], between the acquire and the release of
    the lock. *)
Theorem release_closes_or_pools
    (E : env) (data : bytes) (w : world) (others : list send_pc)
    (response : bytes) (w' : world) :
  Inv (mkConfig w others) →
  MllpClient.send E data w = (Ok response, w') →
  let c := lessee w in
  ∃ o, heap w' !! c = Some o ∧
    message_count o = (message_count (before w) + 1)%Z ∧
    ((0 ≤ max_messages (options w) ∧ max_messages (options w) ≤ message_count o)%Z →
       fd_open (socket o) = false ∧
       since w w' =
         acquisition w ++ [EvSendMllp c true; EvShutdown c true; EvSocketClose c] ∧
       connections w' = popped w ∧
       (∀ sched, c ∉ pool (run sched (mkConfig w' others)))) ∧
    (¬ (0 ≤ max_messages (options w) ∧ max_messages (options w) ≤ message_count o)%Z →
       last_update o = Some (monotonic E) ∧
       connections w' = popped w ++ [c] ∧
       since w w' =
         acquisition w ++ [EvSendMllp c true; EvLock; EvAppend c; EvUnlock] ∧
       guarded is_append false (since w w') = true).
Proof.
  intros HI Hsend c.
  assert (Hok : connections w = [] → connect E = Ok tt).
  { intros Hc. destruct (connect E) as [[]|e] eqn:Hcon; [done|].
    by rewrite (send_refused _ _ _ _ Hc Hcon) in Hsend. }
  destruct (send_acquired E data w others HI Hok)
    as (w0 & Hs & Ho & Hlen & Hc & Hopt & Htr).
  destruct (lessee_not_pooled _ _ HI) as (Hlt & Hbound & Hfresh).
  fold c in Hs, Ho, Hlen, Hlt, Hfresh.
  assert (Hc0 : c < length (heap w0)) by lia.
  rewrite Hs, (exchange_run _ _ _ _ _ Ho) in Hsend. simpl in Hsend.
  rewrite Hopt in Hsend.
  destruct (send_mllp E (socket (before w)) data) as [r|e]; [|done].
  set (o1 := set_message_count (message_count (before w) + 1)
               (set_last_update None (before w))) in *.
  destruct (at_bound (options w) o1) eqn:Hb.
  - destruct (inst_close (before w)); [done|].
    destruct (shutdown E) as [[]|e]; [|done].
    injection Hsend as <- <-. simpl.
    eexists. split; [by apply list_lookup_insert_eq|]. simpl. split; [done|].
    apply at_bound_spec in Hb. split; [intros _|intros []; done].
    split_and!; try done.
    + erewrite since_acquired; [done|done|]. simpl. by tr_norm.
    + intros sched.
      match goal with |- _ ∉ pool (run _ ?cfg) =>
        assert (Hdisc : discarded c cfg) end.
      { split; simpl; [by rewrite length_insert|].
        unfold pool, leased. simpl. by rewrite Hc. }
      by destruct (discarded_run sched _ _ Hdisc) as [_ ?].
  - injection Hsend as <- <-. simpl.
    eexists. split; [by apply list_lookup_insert_eq|]. simpl. split; [done|].
    split; [intros Hcond; apply (at_bound_spec (options w) o1) in Hcond; congruence|intros _].
    assert (Hsince : since w
      (emit [EvLock; EvAppend c; EvUnlock]
         (set_connections (connections w0 ++ [c])
            (set_heap (<[c := set_last_update (Some (monotonic E)) o1]> (heap w0))
               (emit [EvSendMllp c true]
                  (set_heap (<[c := o1]> (heap w0)) w0))))) =
      acquisition w ++ [EvSendMllp c true; EvLock; EvAppend c; EvUnlock]).
    { erewrite since_acquired; [done|done|]. simpl. by tr_norm. }
    split_and!; try done.
    + by rewrite Hc.
    + rewrite Hsince. subst c. by acquisition_cases w.
Qed.

Lemma release_closes_or_pools_witness :
  let w := shared (start pooled) in
  let w' := (MllpClient.send (at_time 0) hl7 w).2 in
  let v := shared (start (mkOptions (Some 5%Z) 1%Z None)) in
  let v' := (MllpClient.send (at_time 0) hl7 v).2 in
  (∃ o, heap w' !! 0 = Some o ∧ last_update o = Some 0%Z ∧ connections w' = [0]) ∧
  (∃ o, heap v' !! 0 = Some o ∧ fd_open (socket o) = false ∧ connections v' = []).
Proof.
  intros w w' v v'. split.
  - destruct (release_closes_or_pools (at_time 0) hl7 w [] ack w'
                (Inv_start pooled) eq_refl) as (o & Ho & Hm & _ & Hpool).
    exists o. split; [exact Ho|].
    destruct Hpool as (Hl & Hc & _).
    + rewrite Hm. simpl. lia.
    + split; [exact Hl|exact Hc].
  - destruct (release_closes_or_pools (at_time 0) hl7 v [] ack v'
                (Inv_start _) eq_refl) as (o & Ho & Hm & Hrot & _).
    exists o. split; [exact Ho|].
    destruct Hrot as (Hf & _ & Hc & _).
    + rewrite Hm. simpl. lia.
    + split; [exact Hf|exact Hc].
Defined.

(** ** Acquisition *)

(** The outcomes of [exchange], to evaluate a property of its trace. *)
Ltac exchange_cases E o d :=
  destruct (send_mllp E (socket o) d) as [?|?];
    [destruct (at_bound _ _);
       [destruct (inst_close o) as [?|]; [|destruct (shutdown E) as [[]|?]]|]|];
  simpl.

Ltac since_here :=
  erewrite since_app; [|simpl; tr_norm; reflexivity].

(** C6. Acquisition is last-in first-out. [append], the release, puts the
    connection at the end of [self.connections]; the watchdog's [remove]
    keeps the order of the others; and [send] on a pool whose idle
    collection ends with [c] pops [c] under the lock, sets its
    [last_update] to [None], which the send-and-await-ack that follows
    leaves [None], and connects no socket. Only when the collection is
    empty does [send] connect a socket, once, and the [connect] happens
    while the lock is free. *)
Theorem acquisition_is_lifo
    (E : env) (data : bytes) (w : world) (rest : list conn_id) (c : conn_id)
    (o : MllpConnection) :
  (connections (MllpClient.append c w).2 = connections w ++ [c]) ∧
  (∀ c' l', py_remove c' (connections w) = Some l' → l' `sublist_of` connections w) ∧
  (connections w = rest ++ [c] → heap w !! c = Some o →
     let w1 := (MllpClient.acquire w).2 in
     (MllpClient.acquire w).1 = Ok (Some c) ∧
     connections w1 = rest ∧
     since w w1 = [EvLock; EvPop (Some c); EvUnlock] ∧
     last_update <$> heap w1 !! c = Some None ∧
     last_update <$> heap (MllpConnection.send E c data w1).2 !! c = Some None ∧
     count is_connect (since w (MllpClient.send E data w).2) = 0) ∧
  (connections w = [] →
     (MllpClient.acquire w).1 = Ok None ∧
     count is_connect (since w (MllpClient.send E data w).2) = 1 ∧
     unguarded is_connect false (since w (MllpClient.send E data w).2) = true).
Proof.
  split_and!.
  - by rewrite append_run.
  - intros c' l'. apply py_remove_sublist.
  - intros Hc Ho. assert (Hlt : c < length (heap w)) by (by eapply lookup_lt_Some).
    rewrite (acquire_pop _ _ _ _ Hc Ho). simpl. split_and!; try done.
    + by since_here.
    + by rewrite list_lookup_insert_eq.
    + erewrite connection_send_run; [|simpl; by apply list_lookup_insert_eq].
      simpl. rewrite list_insert_insert_eq. by rewrite list_lookup_insert_eq.
    + rewrite (send_pop _ _ _ _ _ _ Hc Ho).
      erewrite exchange_run; [|simpl; by apply list_lookup_insert_eq].
      simpl. exchange_cases E o data; by since_here.
  - intros Hc. rewrite (acquire_empty _ Hc). simpl. split; [done|].
    destruct (connect E) as [[]|e] eqn:Hcon.
    + rewrite (send_connect _ _ _ Hc Hcon).
      pose proof (connect_lookup E (emit [EvLock; EvPop None; EvUnlock] w) Hcon) as Hl.
      erewrite exchange_run; [|exact Hl]. rewrite (connect_ok _ _ Hcon). simpl.
      set (s := new_socket (options w)).
      destruct (keep_alive (options w)); simpl;
        (destruct (send_mllp E s data) as [?|?];
           [destruct (at_bound _ _); [destruct (shutdown E) as [[]|?]|]|]);
        simpl; by since_here.
    + rewrite (send_refused _ _ _ _ Hc Hcon). by since_here.
Qed.

Lemma acquisition_is_lifo_witness :
  let w := shared (run (concurrent_sends (at_time 0))
                     (start (mkOptions None (-1) None))) in
  connections w = [0; 1] ∧
  (MllpClient.acquire w).1 = Ok (Some 1) ∧
  connections (MllpClient.acquire w).2 = [0] ∧
  count is_connect (since w (MllpClient.send (at_time 1) hl7 w).2) = 0 ∧
  count is_connect
    (since (MllpClient.__init__ (""%string, 0%Z) pooled)
       (MllpClient.send (at_time 1) hl7
          (MllpClient.__init__ (""%string, 0%Z) pooled)).2) = 1.
Proof.
  intros w.
  destruct (acquisition_is_lifo (at_time 1) hl7 w [0] 1
              (default (MllpConnection.__init__ (new_socket (options w))) (heap w !! 1)))
    as (_ & _ & H & _).
  destruct (H eq_refl eq_refl) as (H1 & H2 & _ & _ & _ & H3).
  destruct (acquisition_is_lifo (at_time 1) hl7
              (MllpClient.__init__ (""%string, 0%Z) pooled) [] 0
              (MllpConnection.__init__ (new_socket pooled)))
    as (_ & _ & _ & H').
  destruct (H' eq_refl) as (_ & H4 & _).
  split; [reflexivity|]. split; [exact H1|]. split; [exact H2|].
  split; [exact H3|exact H4].
Defined.

(** ** The watchdog *)




(** ** The HTTP handler *)

(** C8. When [int(self.headers["Content-Length"])] has a value and
    [MllpClient.send] returns, [do_POST] responds with status [201], writes
    exactly the bytes that [send] returned as the body, and sends a single
    [Content-Length] header, whose value is the number of those bytes. *)
Theorem do_POST_responds_201
    (self : HttpsHandler) (req : request) (E : env) (w : world) (n : Z)
    (response : bytes) (w' : world) :
  int_content_length req = Ok n →
  MllpClient.send E (rfile_read n (rfile req)) w = (Ok response, w') →
  ∃ r, HttpsHandlerM.do_POST self req E w = (Ok r, w') ∧
       status r = 201%Z ∧
       wfile r = response ∧
       header "Content-Length" r = [HInt (Z.of_nat (length response))].
Proof.
  intros Hn Hsend. unfold HttpsHandlerM.do_POST. rewrite Hn.
  unfold mbind at 1, M_bind at 1, lift.
  unfold mbind, M_bind. rewrite Hsend. eexists. split; [reflexivity|].
  split; [done|]. split; [done|].
  unfold header. simpl.
  destruct (nonempty (content_type self)), (h_keep_alive self); reflexivity.
Qed.

Lemma do_POST_responds_201_witness :
  let w := shared (start pooled) in
  ∃ r, HttpsHandlerM.do_POST (mkHandler None None (Some 10%Z))
         (mkRequest (Ok 3%Z) hl7) (at_time 0) w =
         (Ok r, (MllpClient.send (at_time 0) hl7 w).2) ∧
       status r = 201%Z ∧
       wfile r = ack ∧
       header "Content-Length" r = [HInt 3].
Proof.
  intros w.
  exact (do_POST_responds_201 (mkHandler None None (Some 10%Z))
           (mkRequest (Ok 3%Z) hl7) (at_time 0) w 3 ack
           (MllpClient.send (at_time 0) hl7 w).2 eq_refl eq_refl).
Defined.

(** ** Watchdogs never leave their loop *)

Lemma sender_next_frame E pc w pc' w' :
  sender_next E pc w = (pc', w') →
  options w' = options w ∧
  (watchdogs w' = watchdogs w ∨ ∃ c, watchdogs w' = watchdogs w ++ [(c, WTest)]).
Proof.
  unfold sender_next, sender_step, MllpClient.acquire, MllpClient._connect,
    MllpConnection.send, MllpClient.rotate_or_stamp, MllpClient.append,
    MllpConnection.close.
  intros H. destruct pc; crush_step; split; eauto.
Qed.

Lemma watchdog_next_frame E c pc w pc' w' :
  watchdog_next E c pc w = (pc', w') →
  options w' = options w ∧ watchdogs w' = watchdogs w.
Proof.
  unfold watchdog_next, MllpClient._check_connection, MllpConnection.close.
  intros H. by destruct pc; crush_step.
Qed.

(** A watchdog whose connection has [closed = False] stays in its loop. *)
Lemma watchdog_next_not_exit E c pc w pc' w' :
  none_closed (heap w) → pc ≠ WExit →
  watchdog_next E c pc w = (pc', w') → pc' ≠ WExit.
Proof.
  unfold watchdog_next, MllpClient._check_connection, MllpConnection.close.
  intros Hcl Hpc H. destruct pc; crush_step; try done.
  match goal with
  | Ho : heap _ !! _ = Some ?o, Hx : closed ?o = true |- _ =>
      rewrite (Forall_lookup_1 _ _ _ _ Hcl Ho) in Hx; discriminate Hx
  end.
Qed.

(** With a keep-alive that is not positive the watchdog changes no object
    and closes no socket. *)
Lemma watchdog_keeps_heap E c pc w ka :
  keep_alive (options w) = Some ka → (ka ≤ 0)%Z →
  let out := MllpClient._check_connection E c pc w in
  heap out.2 = heap w ∧ count is_socket_close (since w out.2) = 0.
Proof.
  intros Hka Hle. unfold MllpClient._check_connection.
  destruct pc; mrun; rewrite ?Hka; mrun;
    repeat (case_match; mrun); simplify_eq;
    try match goal with H : (_ >? _)%Z = true |- _ => apply Z.gtb_lt in H; lia end;
    (split; [done|]);
    first [ by since_here | by unfold since; rewrite drop_all ].
Qed.

Lemma never_exit_step a cfg :
  none_closed (heap (shared cfg)) →
  Forall (λ t, t.2 ≠ WExit) (watchdogs (shared cfg)) →
  Forall (λ t, t.2 ≠ WExit) (watchdogs (shared (step a cfg))).
Proof.
  intros Hcl Hw. destruct a as [data|i E|j E]; simpl; [done| |].
  - destruct (senders cfg !! i) as [pc|]; [|done].
    destruct (sender_next E pc (shared cfg)) as [pc' w'] eqn:Hs. simpl.
    destruct (sender_next_frame _ _ _ _ _ Hs) as [_ [->|[c ->]]]; [done|].
    apply Forall_app. split; [done|]. by apply Forall_singleton.
  - destruct (watchdogs (shared cfg) !! j) as [[c pc]|] eqn:Hj; [|done].
    destruct (watchdog_next E c pc (shared cfg)) as [pc' w'] eqn:Hn. simpl.
    destruct (watchdog_next_frame _ _ _ _ _ _ Hn) as [_ ->].
    apply Forall_insert; [done|]. simpl.
    eapply watchdog_next_not_exit; [done| |done].
    exact (Forall_lookup_1 _ _ _ _ Hw Hj).
Qed.

Lemma never_exit_run sched cfg :
  none_closed (heap (shared cfg)) →
  Forall (λ t, t.2 ≠ WExit) (watchdogs (shared cfg)) →
  Forall (λ t, t.2 ≠ WExit) (watchdogs (shared (run sched cfg))).
Proof.
  revert cfg. induction sched as [|a sched IH]; intros cfg Hcl Hw; simpl; [done|].
  apply IH; [by apply step_keeps_none_closed|by apply never_exit_step].
Qed.

(** The watchdog of a connection that is not idle, and whose [closed] is
    [False], goes round its loop: it neither exits, nor closes, nor dies. *)
Lemma watchdog_next_looping E c pc w pc' w' o :
  heap w !! c = Some o → closed o = false →
  is_Some (keep_alive (options w)) → c ∉ connections w →
  looping pc = true →
  watchdog_next E c pc w = (pc', w') → looping pc' = true.
Proof.
  unfold watchdog_next, MllpClient._check_connection.
  intros Ho Hcl [ka Hka] Hn Hpc H. apply py_remove_None in Hn.
  destruct pc; try done; mrun; rewrite ?Ho, ?Hka, ?Hn in H; mrun;
    rewrite ?Hcl in H; repeat (case_match; mrun); by simplify_eq.
Qed.

Lemma orphan_step a c j cfg : orphan c j cfg → orphan c j (step a cfg).
Proof.
  intros (Hd & Hcl & Hka & pc & Hj & Hpc).
  split; [by apply discarded_step|]. split; [by apply step_keeps_none_closed|].
  destruct a as [data|i E|j' E]; simpl.
  - split; [done|]. by exists pc.
  - destruct (senders cfg !! i) as [pc0|]; [|split; [done|by exists pc]].
    destruct (sender_next E pc0 (shared cfg)) as [pc' w'] eqn:Hs. simpl.
    destruct (sender_next_frame _ _ _ _ _ Hs) as [-> Hw]. split; [done|].
    exists pc. split; [|done].
    destruct Hw as [->|[c' ->]]; [done|]. by apply lookup_app_l_Some.
  - destruct (watchdogs (shared cfg) !! j') as [[c' pc0]|] eqn:Hj';
      [|split; [done|by exists pc]].
    destruct (watchdog_next E c' pc0 (shared cfg)) as [pc' w'] eqn:Hn. simpl.
    destruct (watchdog_next_frame _ _ _ _ _ _ Hn) as [-> ->]. split; [done|].
    destruct (decide (j' = j)) as [->|Hne].
    + rewrite Hj in Hj'. injection Hj' as <- <-.
      exists pc'. split.
      * apply list_lookup_insert_eq. by eapply lookup_lt_Some.
      * destruct Hd as [Hlt Hnp].
        destruct (lookup_lt_is_Some_2 _ _ Hlt) as [o Ho].
        eapply watchdog_next_looping; [exact Ho| |done| |done|done].
        -- exact (Forall_lookup_1 _ _ _ _ Hcl Ho).
        -- intros Hin. apply Hnp. apply elem_of_app. by left.
    + exists pc. split; [|done]. by rewrite list_lookup_insert_ne.
Qed.

Lemma orphan_run sched c j cfg : orphan c j cfg → orphan c j (run sched cfg).
Proof.
  revert cfg. induction sched as [|a sched IH]; intros cfg H; simpl; [done|].
  by apply IH, orphan_step.
Qed.

(** C3: what the code does instead. No watchdog ever leaves its loop: in
    every state that the program reaches from a new pool the loop condition
    [not connection.closed] holds, because nothing sets [closed]. With
    keep-alive 5 and at most 1 message per connection, one [send] closes
    connection 0 at its bound (the socket is closed, [closed] is still
    [False]); with keep-alive 5 and no bound, the watchdog evicts and closes
    connection 0 once it has been idle for 6 seconds. In both cases, under
    every schedule that follows, the watchdog of connection 0 is still
    inside its loop: it has neither exited nor died. *)
Theorem watchdog_never_exits :
  (∀ opts sched,
     Forall (λ t, t.2 ≠ WExit) (watchdogs (shared (run sched (start opts))))) ∧
  (let rotated := run (Request hl7 :: whole_send 0 (at_time 0))
                    (start (mkOptions (Some 5%Z) 1%Z None)) in
   senders rotated = [SReturn ack] ∧
   connections (shared rotated) = [] ∧
   fd_open <$> (socket <$> heap (shared rotated) !! 0) = Some false ∧
   closed <$> heap (shared rotated) !! 0 = Some false ∧
   ∀ sched, ∃ pc, watchdogs (shared (run sched rotated)) !! 0 = Some (0, pc) ∧
                  looping pc = true) ∧
  (let evicted := run (Request hl7 :: whole_send 0 (at_time 0) ++ iteration 0 (at_time 6))
                    (start (mkOptions (Some 5%Z) (-1)%Z None)) in
   senders evicted = [SReturn ack] ∧
   connections (shared evicted) = [] ∧
   since (shared (run (Request hl7 :: whole_send 0 (at_time 0))
                    (start (mkOptions (Some 5%Z) (-1)%Z None))))
         (shared evicted) =
     [EvLock; EvRemove 0 true; EvUnlock; EvShutdown 0 true; EvSocketClose 0] ∧
   fd_open <$> (socket <$> heap (shared evicted) !! 0) = Some false ∧
   closed <$> heap (shared evicted) !! 0 = Some false ∧
   ∀ sched, ∃ pc, watchdogs (shared (run sched evicted)) !! 0 = Some (0, pc) ∧
                  looping pc = true).
Proof.
  split; [|split].
  - intros opts sched. apply never_exit_run; constructor.
  - intros rotated. split_and!; try reflexivity.
    intros sched.
    assert (Ho : orphan 0 0 rotated).
    { split; [|split; [|split]].
      - split; [vm_compute; lia|]. vm_compute. apply not_elem_of_nil.
      - vm_compute. by repeat constructor.
      - by eexists.
      - by exists WTest. }
    by destruct (orphan_run sched _ _ _ Ho) as (_ & _ & _ & ?).
  - intros evicted. split_and!; try reflexivity.
    intros sched.
    assert (Ho : orphan 0 0 evicted).
    { split; [|split; [|split]].
      - split; [vm_compute; lia|]. vm_compute. apply not_elem_of_nil.
      - vm_compute. by repeat constructor.
      - by eexists.
      - by exists WTest. }
    by destruct (orphan_run sched _ _ _ Ho) as (_ & _ & _ & ?).
Qed.

(** C2: what the code does instead. With [keep_alive = 0] the watchdog never
    sleeps and removes the connection from [self.connections] as soon as it
    finds it there, but the guard [keep_alive > 0] keeps it from calling
    [close()]: no step of a watchdog changes an object or closes a socket.
    After two sends, each followed by an iteration of the watchdog of its
    connection: two connects, no socket closed, both sockets still open,
    [self.connections] empty; right after the first send, before the
    watchdog runs, the connection is idle in [self.connections]. *)
Theorem keep_alive_zero_closes_nothing
    (E : env) (c : conn_id) (pc : wd_pc) (w : world) :
  (keep_alive (options w) = Some 0%Z →
     heap (MllpClient._check_connection E c pc w).2 = heap w ∧
     count is_socket_close (since w (MllpClient._check_connection E c pc w).2) = 0) ∧
  (let opts := mkOptions (Some 0%Z) (-1)%Z None in
   let cfg1 := run (Request hl7 :: whole_send 0 (at_time 0)) (start opts) in
   let cfg2 := run (iteration 0 (at_time 1)) cfg1 in
   let cfg3 := run (Request hl7 :: whole_send 1 (at_time 2) ++ iteration 1 (at_time 3))
                 cfg2 in
   connections (shared cfg1) = [0] ∧
   connections (shared cfg2) = [] ∧
   connections (shared cfg3) = [] ∧
   senders cfg3 = [SReturn ack; SReturn ack] ∧
   count is_connect (trace (shared cfg3)) = 2 ∧
   count is_socket_close (trace (shared cfg3)) = 0 ∧
   (λ o, fd_open (socket o)) <$> heap (shared cfg3) = [true; true]).
Proof.
  split.
  - intros Hka. by apply (watchdog_keeps_heap E c pc w 0).
  - by vm_compute.
Qed.

Lemma keep_alive_zero_closes_nothing_witness :
  let w := shared (run (Request hl7 :: whole_send 0 (at_time 0))
                     (start (mkOptions (Some 0%Z) (-1)%Z None))) in
  heap (MllpClient._check_connection (at_time 1) 0 WClose w).2 = heap w.
Proof.
  intros w.
  destruct (keep_alive_zero_closes_nothing (at_time 1) 0 WClose w) as [H _].
  exact (proj1 (H eq_refl)).
Defined.



